(** * TextContainer: a text with inline formatting elements

    A verification model of [src/tree/values/nodes/TextContainer.js].

    The class stores a plain text and an array of formatting elements, and
    its constructor runs [_constrainFormatElementPositionsToEnd] once for
    ["startIndex"] and once for ["endIndex"].  Formatting elements are
    JavaScript objects: the array holds references to them and the
    constructor writes into the referenced objects in place.  The model
    therefore keeps an explicit object store, the array is a list of
    references into it, and everything the constructor does is a computation
    over that store which also collects what is written to the console. *)

From stdpp Require Import base decidable functions strings list gmap.
From Stdlib Require Import ZArith Lia.

Local Open Scope string_scope.
Local Open Scope Z_scope.

(** ** Data model *)

(** References to formatting element objects. *)
Definition loc := positive.

(** Modelled from the spec: the [FormattingElement] class is not part of the
    sources at hand; only its use in [TextContainer.js] is.  The
    specification's data model gives a formatting span a [tag], the two
    integer offsets [startIndex] and [endIndex], and a mapping of
    [attributes]. *)
Record FormattingElement : Type := mkFormattingElement {
  tag : string;
  startIndex : Z;
  endIndex : Z;
  attributes : gmap string string
}.

(** The parameter [position] of [_constrainFormatElementPositionsToEnd], of
    type ["startIndex"|"endIndex"]. *)
Inductive position : Type := StartIndex | EndIndex.

(** The property name a [position] stands for, as it is interpolated into
    the warning. *)
Definition position_name (p : position) : string :=
  match p with
  | StartIndex => "startIndex"
  | EndIndex => "endIndex"
  end.

(** [format[ position ]] *)
Definition get_position (p : position) (e : FormattingElement) : Z :=
  match p with
  | StartIndex => startIndex e
  | EndIndex => endIndex e
  end.

(** [elem[ position ] = v], on the object's contents. *)
Definition set_position (p : position) (v : Z) (e : FormattingElement)
  : FormattingElement :=
  match p with
  | StartIndex =>
      {| tag := tag e; startIndex := v; endIndex := endIndex e;
         attributes := attributes e |}
  | EndIndex =>
      {| tag := tag e; startIndex := startIndex e; endIndex := v;
         attributes := attributes e |}
  end.

(** The instance: [this.text] and [this.formatting].  The array is never
    written to by the class, so it is kept as the list of its entries. *)
Record TextContainer : Type := mkTextContainer {
  text : string;
  formatting : list loc
}.

(** [text.length].  The text is a sequence of code units, and only their
    number is ever looked at. *)
Definition text_length (s : string) : Z := Z.of_nat (String.length s).

(** ** Effects: the object store and the console *)

(** Every reference denotes an object, so the store is a total map. *)
Abbreviation store := (loc → FormattingElement).

(** What a computation leaves behind: its value, the store after it and the
    lines it wrote with [console.warn], oldest first. *)
Record outcome (A : Type) : Type := mkOutcome {
  value : A;
  heap : store;
  console : list string
}.
Arguments mkOutcome {A} _ _ _.
Arguments value {A} _.
Arguments heap {A} _.
Arguments console {A} _.

Definition M (A : Type) : Type := store → outcome A.

(** The computations form a monad, with stdpp's notation [x ← m; k]. *)
#[global] Instance M_ret : MRet M :=
  fun A (a : A) h => mkOutcome a h [].

#[global] Instance M_bind : MBind M :=
  fun A B (k : A → M B) (m : M A) h =>
    let r1 := m h in
    let r2 := k (value r1) (heap r1) in
    mkOutcome (value r2) (heap r2) (console r1 ++ console r2).

(** Reading a property of a referenced element. *)
Definition read_position (l : loc) (p : position) : M Z :=
  fun h => mkOutcome (get_position p (h l)) h [].

Definition read_tag (l : loc) : M string :=
  fun h => mkOutcome (tag (h l)) h [].

(** Writing a property of a referenced element, in place. *)
Definition write_position (l : loc) (p : position) (v : Z) : M unit :=
  fun h => mkOutcome tt (<[l := set_position p v (h l)]> h) [].

(** [console.warn( line )] *)
Definition console_warn (line : string) : M unit :=
  fun h => mkOutcome tt h [line].

(** [Array.prototype.find]: the callback is called on the entries in
    order, and the first entry for which it answers true is returned;
    [None] stands for [undefined]. *)
Fixpoint array_find (callback : loc → M bool) (arr : list loc)
  : M (option loc) :=
  match arr with
  | [] => mret None
  | format :: rest =>
      found ← callback format ;
      if (found : bool) then mret (Some format) else array_find callback rest
  end.

(** ** The class *)

(** The template literal of the warning. *)
Definition warning (elem_tag : string) (p : position) : string :=
  "'" +:+ elem_tag +:+ "' element's " +:+ position_name p +:+
  " position larger than text. It has been set to the end of the text instead.".

(** [_constrainFormatElementPositionsToEnd( position )] *)
Definition _constrainFormatElementPositionsToEnd
    (this : TextContainer) (p : position) : M unit :=
  elem ← array_find
           (fun format =>
              pos ← read_position format p ;
              mret (text_length (text this) <? pos))
           (formatting this) ;
  match elem with
  | Some elem =>
      write_position elem p (text_length (text this));;
      elem_tag ← read_tag elem ;
      console_warn (warning elem_tag p)
  | None => mret tt
  end.

(** [constructor( text, formatting )] *)
Definition constructor (text : string) (formatting : list loc)
  : M TextContainer :=
  let this := {| text := text; formatting := formatting |} in
  _constrainFormatElementPositionsToEnd this StartIndex;;
  _constrainFormatElementPositionsToEnd this EndIndex;;
  mret this.

(** ** Vocabulary of the properties *)

(** The element behind [l] has its [p] position past the end of the text:
    the test of the callback handed to [find]. *)
Definition exceeds (p : position) (text : string) (h : store) (l : loc)
  : Prop :=
  text_length text < get_position p (h l).

(** The first entry of the array, in its order, whose [p] position lies
    past the end of the text. *)
Definition first_offender (p : position) (text : string)
    (formatting : list loc) (h : store) : option loc :=
  List.find (fun l => text_length text <? get_position p (h l)) formatting.

(** Construction left the [p] position of the element behind [l] different
    from what it was. *)
Definition corrected (p : position) (text : string) (formatting : list loc)
    (h : store) (l : loc) : Prop :=
  get_position p (heap (constructor text formatting h) l)
  ≠ get_position p (h l).

(** [sub] occurs in [s], as [String.prototype.includes] tests it. *)
Fixpoint includes (sub s : string) : bool :=
  String.prefix sub s ||
  match s with
  | EmptyString => false
  | String _ s' => includes sub s'
  end.

(** The range invariant of the specification's data model, for one span. *)
Definition within_bounds (txt : string) (e : FormattingElement) : Prop :=
  (0 ≤ startIndex e ≤ text_length txt) ∧ (0 ≤ endIndex e ≤ text_length txt).

(** What one pass does to the store, in one step: the first offender, if
    there is one, gets its [p] position set to the length of the text. *)
Definition clamp (p : position) (text : string) (formatting : list loc)
    (h : store) : store :=
  match first_offender p text formatting h with
  | Some l => <[l := set_position p (text_length text) (h l)]> h
  | None => h
  end.

(** What one pass writes to the console. *)
Definition report (p : position) (text : string) (formatting : list loc)
    (h : store) : list string :=
  match first_offender p text formatting h with
  | Some l => [warning (tag (h l)) p]
  | None => []
  end.

(** The entries of the array whose [p] position lies past the end of the
    text, in the array's order and with its repetitions. *)
#[global] Instance exceeds_dec p text (h : store) l :
  Decision (exceeds p text h l).
Proof. unfold exceeds. apply _. Defined.

Definition offenders (p : position) (text : string) (formatting : list loc)
    (h : store) : list loc :=
  filter (fun l => exceeds p text h l) formatting.

(** [new TextContainer( text, formatting )], [n] times in a row from the
    same text and the same array, as a caller holding both can do. *)
Fixpoint construct_times (n : nat) (text : string) (formatting : list loc)
  : M unit :=
  match n with
  | O => mret tt
  | S n' => constructor text formatting;; construct_times n' text formatting
  end.

(** ** Inputs of the examples *)

Definition blank : FormattingElement := mkFormattingElement "" 0 0 ∅.

(** A store holding the listed objects; other references hold [blank]. *)
Definition store_of (objs : list (loc * FormattingElement)) : store :=
  foldr (fun '(l, e) h => <[l := e]> h) (fun _ => blank) objs.

(** Two spans over a five-character text: the first starts past the end,
    the second ends past the end. *)
Definition start_and_end_offenders : store :=
  store_of [ (1%positive, mkFormattingElement "em" 99 0 ∅);
             (2%positive, mkFormattingElement "strong" 0 99 ∅) ].

(** Three spans over a three-character text: two start past the end, the
    third starts before the beginning. *)
Definition two_start_offenders_and_a_negative : store :=
  store_of [ (1%positive, mkFormattingElement "em" 7 1 ∅);
             (2%positive, mkFormattingElement "strong" 9 2 ∅);
             (3%positive, mkFormattingElement "a" (-1) 2 ∅) ].

(** Three spans over a three-character text: the second and the third both
    start and end past the end of the text. *)
Definition two_offenders : store :=
  store_of [ (1%positive, mkFormattingElement "em" 1 2 ∅);
             (2%positive, mkFormattingElement "strong" 7 8 ∅);
             (3%positive, mkFormattingElement "a" 9 10 ∅) ].

(** The specification's scenario without a correction, with a second span
    added that reaches exactly the end of the eleven-character text. *)
Definition hello_world_spans : store :=
  store_of [ (1%positive, mkFormattingElement "em" 0 5 ∅);
             (2%positive, mkFormattingElement "strong" 6 11 ∅) ].

(** The scenario of the class documentation and of the specification. *)
Definition very_strong : store :=
  store_of [ (1%positive,
              mkFormattingElement "strong" 13 99 {[ "id" := "elem-id" ]}) ].

(** The same span with another [startIndex]. *)
Definition very_strong_moved : store :=
  store_of [ (1%positive,
              mkFormattingElement "strong" 20 99 {[ "id" := "elem-id" ]}) ].

(** Two spans over a three-character text: the first starts past the end,
    the second starts and ends past the end, its start before its end. *)
Definition wide_span_after_start_offender : store :=
  store_of [ (1%positive, mkFormattingElement "em" 9 1 ∅);
             (2%positive, mkFormattingElement "strong" 7 9 ∅) ].

(** ** Proof automation *)

(** Case analysis on membership in an explicit list. *)
Ltac by_cases_on_entries H :=
  repeat (apply elem_of_cons in H as [-> | H]);
  try (by apply elem_of_nil in H).

(** ** The passes, equationally *)

Lemma get_set_position_eq p v e :
  get_position p (set_position p v e) = v.
Proof. by destruct p. Qed.

Lemma get_set_position_ne p q v e :
  p ≠ q → get_position p (set_position q v e) = get_position p e.
Proof. by destruct p, q. Qed.

Lemma tag_set_position p v e : tag (set_position p v e) = tag e.
Proof. by destruct p. Qed.

Lemma attributes_set_position p v e :
  attributes (set_position p v e) = attributes e.
Proof. by destruct p. Qed.

(** A callback that only reads makes [array_find] the list search, and
    leaves store and console alone. *)
Lemma array_find_read_only (callback : loc → M bool) (test : store → loc → bool) :
  (∀ l h, callback l h = mkOutcome (test h l) h []) →
  ∀ arr h, array_find callback arr h = mkOutcome (List.find (test h) arr) h [].
Proof.
  intros Hcb arr h. induction arr as [|l arr IH]; [done|].
  cbn [array_find List.find]. unfold mbind, M_bind. rewrite Hcb. cbn.
  destruct (test h l); [done|]. by rewrite IH.
Qed.

(** One pass: nothing happens without an offender; otherwise the first
    offender is written to and one line is printed. *)
Lemma constrain_eq this p h :
  _constrainFormatElementPositionsToEnd this p h =
  match first_offender p (text this) (formatting this) h with
  | Some l =>
      mkOutcome tt
        (<[l := set_position p (text_length (text this)) (h l)]> h)
        [warning (tag (h l)) p]
  | None => mkOutcome tt h []
  end.
Proof.
  unfold _constrainFormatElementPositionsToEnd, first_offender.
  unfold mbind at 1. unfold M_bind.
  rewrite (array_find_read_only _
             (fun h l => text_length (text this) <? get_position p (h l)))
    by done.
  cbn. destruct (List.find _ _) as [l|]; [|done].
  unfold mbind, M_bind, write_position, read_tag, console_warn. cbn.
  by rewrite fn_lookup_insert, tag_set_position.
Qed.

Section Passes.
Variables (txt : string) (fmt : list loc).

Lemma first_offender_Some p h l :
  first_offender p txt fmt h = Some l →
  l ∈ fmt ∧ exceeds p txt h l.
Proof.
  unfold first_offender, exceeds. intros Hf.
  apply find_some in Hf as [Hin Hlt].
  split; [by apply list_elem_of_In | by apply Z.ltb_lt].
Qed.

Lemma first_offender_None p h :
  first_offender p txt fmt h = None ↔
  ∀ l, l ∈ fmt → ¬ exceeds p txt h l.
Proof.
  unfold first_offender, exceeds. split.
  - intros Hf l Hin Hlt.
    apply list_elem_of_In in Hin. apply (find_none _ _ Hf) in Hin.
    apply Z.ltb_lt in Hlt. congruence.
  - intros Hall. induction fmt as [|l0 ls IH]; [done|].
    cbn. destruct (Z.ltb_spec (text_length txt) (get_position p (h l0)))
      as [Hlt|Hge].
    + exfalso. apply (Hall l0); [left | done].
    + apply IH. intros l Hin. apply Hall. by right.
Qed.

Lemma first_offender_is_Some p h l :
  l ∈ fmt → exceeds p txt h l →
  is_Some (first_offender p txt fmt h).
Proof.
  intros Hin Hex.
  destruct (first_offender p txt fmt h) eqn:Hf; [by eexists|].
  exfalso. by apply (proj1 (first_offender_None p h) Hf l).
Qed.

(** The search only looks at the [p] positions of the entries. *)
Lemma first_offender_ext p h1 h2 :
  (∀ l, l ∈ fmt → get_position p (h1 l) = get_position p (h2 l)) →
  first_offender p txt fmt h1 = first_offender p txt fmt h2.
Proof.
  unfold first_offender. intros Hagree.
  induction fmt as [|l0 ls IH]; [done|].
  cbn. rewrite (Hagree l0) by left.
  destruct (_ <? _); [done|]. apply IH. intros l Hin. apply Hagree. by right.
Qed.

Lemma get_position_clamp_ne p q h l :
  p ≠ q →
  get_position p (clamp q txt fmt h l) = get_position p (h l).
Proof.
  intros Hne. unfold clamp.
  destruct (first_offender q txt fmt h) as [l0|]; [|done].
  destruct (decide (l0 = l)) as [->|Hl].
  - by rewrite fn_lookup_insert, get_set_position_ne.
  - by rewrite fn_lookup_insert_ne.
Qed.

Lemma get_position_clamp_eq p h l :
  get_position p (clamp p txt fmt h l) =
  if decide (first_offender p txt fmt h = Some l)
  then text_length txt else get_position p (h l).
Proof.
  unfold clamp.
  destruct (first_offender p txt fmt h) as [l0|] eqn:Hf.
  - destruct (decide (l0 = l)) as [->|Hl].
    + rewrite fn_lookup_insert, get_set_position_eq.
      by rewrite decide_True.
    + rewrite fn_lookup_insert_ne by done.
      rewrite decide_False; [done | congruence].
  - by rewrite decide_False.
Qed.

Lemma tag_clamp p h l : tag (clamp p txt fmt h l) = tag (h l).
Proof.
  unfold clamp. destruct (first_offender p txt fmt h) as [l0|]; [|done].
  destruct (decide (l0 = l)) as [->|Hl].
  - by rewrite fn_lookup_insert, tag_set_position.
  - by rewrite fn_lookup_insert_ne.
Qed.

Lemma attributes_clamp p h l :
  attributes (clamp p txt fmt h l) = attributes (h l).
Proof.
  unfold clamp. destruct (first_offender p txt fmt h) as [l0|]; [|done].
  destruct (decide (l0 = l)) as [->|Hl].
  - by rewrite fn_lookup_insert, attributes_set_position.
  - by rewrite fn_lookup_insert_ne.
Qed.

(** The pass for ["endIndex"] finds the same element whether or not the
    pass for ["startIndex"] ran before it. *)
Lemma first_offender_clamp p q h :
  p ≠ q →
  first_offender p txt fmt (clamp q txt fmt h) =
  first_offender p txt fmt h.
Proof.
  intros Hne. apply first_offender_ext. intros l _.
  by apply get_position_clamp_ne.
Qed.

Lemma report_clamp p q h :
  p ≠ q → report p txt fmt (clamp q txt fmt h) = report p txt fmt h.
Proof.
  intros Hne. unfold report. rewrite first_offender_clamp by done.
  destruct (first_offender p txt fmt h); [|done]. by rewrite tag_clamp.
Qed.

Lemma constrain_clamp_report p h :
  _constrainFormatElementPositionsToEnd
    {| text := txt; formatting := fmt |} p h =
  mkOutcome tt (clamp p txt fmt h) (report p txt fmt h).
Proof.
  rewrite constrain_eq. unfold clamp, report. cbn [text formatting].
  by destruct (first_offender p txt fmt h).
Qed.

(** The constructor, as the two passes in sequence. *)
Lemma constructor_eq h :
  constructor txt fmt h =
  mkOutcome {| text := txt; formatting := fmt |}
    (clamp EndIndex txt fmt (clamp StartIndex txt fmt h))
    (report StartIndex txt fmt h ++ report EndIndex txt fmt h).
Proof.
  unfold constructor, mbind, M_bind, mret, M_ret.
  rewrite !constrain_clamp_report. cbv [value heap console].
  by rewrite app_nil_r, report_clamp.
Qed.
End Passes.

(** ** The constructed entity *)

Section Construction.
Variables (txt : string) (fmt : list loc) (h : store).

Lemma clamp_other p (h0 : store) l :
  first_offender p txt fmt h0 ≠ Some l → clamp p txt fmt h0 l = h0 l.
Proof.
  unfold clamp. destruct (first_offender p txt fmt h0) as [l0|]; [|done].
  intros Hne. rewrite fn_lookup_insert_ne; [done | congruence].
Qed.

Lemma constructed_value :
  value (constructor txt fmt h) = {| text := txt; formatting := fmt |}.
Proof. by rewrite constructor_eq. Qed.

Lemma constructed_console :
  console (constructor txt fmt h) =
  (report StartIndex txt fmt h ++ report EndIndex txt fmt h)%list.
Proof. by rewrite constructor_eq. Qed.

(** Each position of each element after construction. *)
Lemma constructed_position p l :
  get_position p (heap (constructor txt fmt h) l) =
  if decide (first_offender p txt fmt h = Some l)
  then text_length txt else get_position p (h l).
Proof.
  rewrite constructor_eq. cbv [heap]. destruct p.
  - rewrite get_position_clamp_ne by done. apply get_position_clamp_eq.
  - rewrite get_position_clamp_eq, first_offender_clamp by done.
    by rewrite get_position_clamp_ne.
Qed.

Lemma constructed_tag l : tag (heap (constructor txt fmt h) l) = tag (h l).
Proof. rewrite constructor_eq. cbv [heap]. by rewrite !tag_clamp. Qed.

Lemma constructed_attributes l :
  attributes (heap (constructor txt fmt h) l) = attributes (h l).
Proof. rewrite constructor_eq. cbv [heap]. by rewrite !attributes_clamp. Qed.

(** An element neither pass picks is the same object contents after. *)
Lemma constructed_other l :
  first_offender StartIndex txt fmt h ≠ Some l →
  first_offender EndIndex txt fmt h ≠ Some l →
  heap (constructor txt fmt h) l = h l.
Proof.
  intros Hs He. rewrite constructor_eq. cbv [heap].
  rewrite clamp_other by (by rewrite first_offender_clamp).
  by apply clamp_other.
Qed.

(** The positions construction changes are those of the first offenders. *)
Lemma corrected_iff p l :
  corrected p txt fmt h l ↔ first_offender p txt fmt h = Some l.
Proof.
  unfold corrected. rewrite constructed_position.
  destruct (decide (first_offender p txt fmt h = Some l)) as [Hf|Hf].
  - split; [done|]. intros _.
    apply first_offender_Some in Hf as [_ Hex]. unfold exceeds in Hex. lia.
  - split; [done|]. intros Hf'. by destruct Hf.
Qed.

(** The only offender is the first one. *)
Lemma first_offender_sole p l :
  l ∈ fmt → exceeds p txt h l →
  (∀ l', l' ∈ fmt → exceeds p txt h l' → l' = l) →
  first_offender p txt fmt h = Some l.
Proof.
  intros Hin Hex Hsole.
  destruct (first_offender_is_Some txt fmt p h l Hin Hex) as [l0 Hf].
  rewrite Hf. f_equal.
  apply first_offender_Some in Hf as [Hin0 Hex0]. by apply Hsole.
Qed.
End Construction.

(** The first entry past the end, by position in the array. *)
Lemma first_offender_app p txt (h : store) pre l0 post :
  Forall (fun l => ¬ exceeds p txt h l) pre → exceeds p txt h l0 →
  first_offender p txt (pre ++ l0 :: post) h = Some l0.
Proof.
  unfold first_offender, exceeds. intros Hpre Hex.
  induction Hpre as [|l pre Hl _ IH]; cbn.
  - by rewrite (proj2 (Z.ltb_lt _ _) Hex).
  - by rewrite (proj2 (Z.ltb_ge _ _) (proj1 (Z.nlt_ge _ _) Hl)).
Qed.

(** ** The text of the warning *)

Lemma append_String c (s t : string) :
  String c s +:+ t = String c (s +:+ t).
Proof. reflexivity. Qed.

Lemma append_assoc (s1 s2 s3 : string) :
  (s1 +:+ s2) +:+ s3 = s1 +:+ (s2 +:+ s3).
Proof.
  induction s1 as [|c s1 IH]; [done|]. rewrite !append_String. by f_equal.
Qed.

Lemma prefix_append (sub post : string) :
  String.prefix sub (sub +:+ post) = true.
Proof.
  induction sub as [|c sub IH]; [by destruct post|].
  rewrite append_String. cbn. by destruct (Ascii.ascii_dec c c).
Qed.

Lemma includes_unfold (sub s : string) :
  includes sub s =
  String.prefix sub s ||
  match s with EmptyString => false | String _ s' => includes sub s' end.
Proof. by destruct s. Qed.

Lemma includes_append (pre sub post : string) :
  includes sub (pre +:+ sub +:+ post) = true.
Proof.
  induction pre as [|c pre IH].
  - change ("" +:+ sub +:+ post) with (sub +:+ post).
    by rewrite includes_unfold, prefix_append.
  - rewrite append_String, includes_unfold, IH. apply orb_true_r.
Qed.

Lemma warning_includes_tag t p : includes t (warning t p) = true.
Proof. unfold warning. apply includes_append. Qed.

Lemma warning_includes_position t p :
  includes (position_name p) (warning t p) = true.
Proof.
  unfold warning.
  rewrite <- (append_assoc "'" t).
  rewrite <- (append_assoc _ "' element's ").
  apply includes_append.
Qed.

Lemma warning_includes_statement t p :
  includes "It has been set to the end of the text" (warning t p) = true.
Proof.
  unfold warning.
  change (" position larger than text. It has been set to the end of the text instead.")
    with (" position larger than text. " +:+
          "It has been set to the end of the text" +:+ " instead.").
  rewrite <- (append_assoc "'" t), <- (append_assoc _ "' element's ").
  rewrite <- (append_assoc _ (position_name p)).
  rewrite <- (append_assoc _ " position larger than text. ").
  apply includes_append.
Qed.

Lemma list_ascii_of_string_append (s1 s2 : string) :
  String.list_ascii_of_string (s1 +:+ s2) =
  (String.list_ascii_of_string s1 ++ String.list_ascii_of_string s2)%list.
Proof.
  induction s1 as [|c s1 IH]; [done|]. rewrite append_String. cbn.
  by f_equal.
Qed.

(** The warning names its position unambiguously, whatever the tags. *)
Lemma warning_position_inj t1 t2 p1 p2 :
  warning t1 p1 = warning t2 p2 → p1 = p2.
Proof.
  intros Heq.
  apply (f_equal String.list_ascii_of_string) in Heq.
  apply (f_equal (@List.rev _)) in Heq.
  unfold warning in Heq.
  rewrite !list_ascii_of_string_append, !rev_app_distr in Heq.
  destruct p1, p2; try done; cbn in Heq; discriminate Heq.
Qed.

(** Every line on the console comes from one of the two passes finding
    its first offender. *)
Lemma console_accounted txt fmt (h : store) m :
  m ∈ console (constructor txt fmt h) →
  ∃ p l, first_offender p txt fmt h = Some l ∧ m = warning (tag (h l)) p.
Proof.
  rewrite constructed_console. intros Hm.
  apply elem_of_app in Hm as [Hm|Hm]; unfold report in Hm.
  - destruct (first_offender StartIndex txt fmt h) as [l|] eqn:Hf;
      [|by apply elem_of_nil in Hm].
    apply list_elem_of_singleton in Hm. by exists StartIndex, l.
  - destruct (first_offender EndIndex txt fmt h) as [l|] eqn:Hf;
      [|by apply elem_of_nil in Hm].
    apply list_elem_of_singleton in Hm. by exists EndIndex, l.
Qed.

(** Without an entry past the end in either position, construction does
    nothing at all. *)
Lemma constructor_noop txt fmt (h : store) :
  (∀ p l, l ∈ fmt → ¬ exceeds p txt h l) →
  constructor txt fmt h =
  mkOutcome {| text := txt; formatting := fmt |} h [].
Proof.
  intros Hnone. rewrite constructor_eq. unfold clamp, report.
  rewrite (proj2 (first_offender_None txt fmt StartIndex h))
    by (intros l; apply Hnone).
  by rewrite (proj2 (first_offender_None txt fmt EndIndex h))
    by (intros l; apply Hnone).
Qed.

(** The array holds references: an element listed twice is one span, and
    the single write to it shows through both entries. *)
Lemma same_element_listed_twice :
  let r := constructor "abc" [2%positive; 2%positive] two_offenders in
  formatting (value r) = [2%positive; 2%positive] ∧
  startIndex (heap r 2%positive) = 3 ∧
  console r =
    [warning "strong" StartIndex; warning "strong" EndIndex].
Proof. by vm_compute. Qed.

(** ** Claims *)

(** C1, as stated, fails: in the text ["abcde"] with the spans of
    [start_and_end_offenders], exactly one span has its [startIndex] past the
    end of the text, and yet construction changes the other span too, whose
    [endIndex] the second pass sets to the length of the text. *)
Lemma sole_start_offender_other_span_changed :
  (1%positive ∈ [1%positive; 2%positive] ∧
   exceeds StartIndex "abcde" start_and_end_offenders 1%positive ∧
   ∀ l', l' ∈ [1%positive; 2%positive] →
         exceeds StartIndex "abcde" start_and_end_offenders l' →
         l' = 1%positive) ∧
  heap (constructor "abcde" [1%positive; 2%positive] start_and_end_offenders)
    2%positive
  ≠ start_and_end_offenders 2%positive.
Proof.
  split; [split; [|split] |].
  - set_solver.
  - unfold exceeds. vm_compute. done.
  - intros l' Hin Hex. by_cases_on_entries Hin; [done|].
    unfold exceeds in Hex. vm_compute in Hex. done.
  - intros Heq. apply (f_equal endIndex) in Heq. vm_compute in Heq. done.
Qed.

(** C1, amended: when exactly one span of the collection has its [p]
    position past the end of the text ([p] being [startIndex] or
    [endIndex]), construction leaves that span's [p] position equal to the
    length of the text, and leaves the [p] position, the tag and the
    attributes of every other span as they were; when moreover no span has
    its other position past the end, every other span is unchanged
    altogether. *)
Theorem sole_offender_clamped p txt fmt (h : store) l :
  l ∈ fmt → exceeds p txt h l →
  (∀ l', l' ∈ fmt → exceeds p txt h l' → l' = l) →
  let h' := heap (constructor txt fmt h) in
  get_position p (h' l) = text_length txt ∧
  (∀ l', l' ≠ l →
     get_position p (h' l') = get_position p (h l') ∧
     tag (h' l') = tag (h l') ∧
     attributes (h' l') = attributes (h l')) ∧
  (∀ q, q ≠ p → (∀ l', l' ∈ fmt → ¬ exceeds q txt h l') →
     ∀ l', l' ≠ l → h' l' = h l').
Proof.
  intros Hin Hex Hsole h'. subst h'.
  pose proof (first_offender_sole txt fmt h p l Hin Hex Hsole) as Hf.
  split; [|split].
  - rewrite constructed_position. by rewrite decide_True.
  - intros l' Hne. rewrite constructed_position, constructed_tag,
      constructed_attributes.
    rewrite decide_False; [done | congruence].
  - intros q Hq Hnone l' Hne.
    apply (first_offender_None txt fmt q h) in Hnone.
    apply constructed_other; destruct p, q; congruence.
Qed.

Lemma sole_offender_clamped_witness :
  let h' := heap (constructor "abcde" [1%positive; 2%positive]
                    start_and_end_offenders) in
  get_position StartIndex (h' 1%positive) = text_length "abcde" ∧
  (∀ l', l' ≠ 1%positive →
     get_position StartIndex (h' l')
     = get_position StartIndex (start_and_end_offenders l') ∧
     tag (h' l') = tag (start_and_end_offenders l') ∧
     attributes (h' l') = attributes (start_and_end_offenders l')) ∧
  (∀ q, q ≠ StartIndex →
     (∀ l', l' ∈ [1%positive; 2%positive] →
            ¬ exceeds q "abcde" start_and_end_offenders l') →
     ∀ l', l' ≠ 1%positive → h' l' = start_and_end_offenders l').
Proof.
  apply (sole_offender_clamped StartIndex "abcde" [1%positive; 2%positive]
           start_and_end_offenders 1%positive).
  - set_solver.
  - unfold exceeds. vm_compute. reflexivity.
  - intros l' Hin Hex. by_cases_on_entries Hin; [reflexivity|].
    unfold exceeds in Hex. vm_compute in Hex. discriminate Hex.
Defined.

(** C2, as stated, fails: after constructing from ["abc"] and the spans of
    [two_start_offenders_and_a_negative], the second span still starts at 9,
    past the end of the text, and the third still starts at -1. *)
Lemma bounds_violated_after_construction :
  let fmt := [1%positive; 2%positive; 3%positive] in
  let h' := heap (constructor "abc" fmt two_start_offenders_and_a_negative) in
  (2%positive ∈ fmt ∧ ¬ within_bounds "abc" (h' 2%positive)) ∧
  (3%positive ∈ fmt ∧ ¬ within_bounds "abc" (h' 3%positive)).
Proof.
  cbv zeta. split; (split; [set_solver|]); unfold within_bounds;
    vm_compute; intros [[H1 H2] _]; [by apply H2 | by apply H1].
Qed.

(** C2, amended: when on input no position of any span of the collection is
    negative, and for each of [startIndex] and [endIndex] at most one span
    has that position past the end of the text, then after construction
    every span of the collection has both positions between 0 and the length
    of the text. *)
Theorem bounds_after_construction txt fmt (h : store) :
  (∀ p l, l ∈ fmt → 0 ≤ get_position p (h l)) →
  (∀ p l1 l2, l1 ∈ fmt → l2 ∈ fmt →
     exceeds p txt h l1 → exceeds p txt h l2 → l1 = l2) →
  ∀ l, l ∈ fmt → within_bounds txt (heap (constructor txt fmt h) l).
Proof.
  intros Hnonneg Hsole l Hin.
  assert (Hlen : 0 ≤ text_length txt) by (unfold text_length; lia).
  assert (Hp : ∀ p, 0 ≤ get_position p (heap (constructor txt fmt h) l)
                        ≤ text_length txt).
  { intros p. rewrite constructed_position.
    destruct (decide (first_offender p txt fmt h = Some l)) as [Hf|Hf]; [lia|].
    split; [by apply Hnonneg|].
    destruct (Z_le_gt_dec (get_position p (h l)) (text_length txt))
      as [Hle|Hgt]; [done|].
    exfalso. apply Hf. apply first_offender_sole; [done | unfold exceeds; lia |].
    intros l' Hin' Hex'. apply (Hsole p); [done | done | done |].
    unfold exceeds. lia. }
  split; [apply (Hp StartIndex) | apply (Hp EndIndex)].
Qed.

Lemma bounds_after_construction_witness :
  let h' := heap (constructor "abcde" [1%positive; 2%positive]
                    start_and_end_offenders) in
  within_bounds "abcde" (h' 1%positive) ∧
  within_bounds "abcde" (h' 2%positive).
Proof.
  assert (Hnonneg : ∀ p l, l ∈ [1%positive; 2%positive] →
                      0 ≤ get_position p (start_and_end_offenders l)).
  { intros p l Hin. by_cases_on_entries Hin; destruct p; vm_compute;
      discriminate. }
  assert (Hsole : ∀ p l1 l2,
            l1 ∈ [1%positive; 2%positive] → l2 ∈ [1%positive; 2%positive] →
            exceeds p "abcde" start_and_end_offenders l1 →
            exceeds p "abcde" start_and_end_offenders l2 → l1 = l2).
  { intros p l1 l2 Hin1 Hin2 Hex1 Hex2. unfold exceeds in Hex1, Hex2.
    by_cases_on_entries Hin1; by_cases_on_entries Hin2;
      try reflexivity; destruct p; vm_compute in Hex1, Hex2; discriminate. }
  split;
    apply (bounds_after_construction "abcde" [1%positive; 2%positive]
             start_and_end_offenders Hnonneg Hsole); set_solver.
Defined.

(** C3: when the first span of the collection, in its order, whose [p]
    position lies past the end of the text is followed by another such span,
    construction sets the [p] position of the first to the length of the
    text and leaves the [p] position of the later one as it was, still past
    the end; this for [p] being [startIndex] and for [p] being
    [endIndex]. *)
Theorem only_first_offender_corrected p txt (h : store) pre l0 post l :
  Forall (fun l' => ¬ exceeds p txt h l') pre → exceeds p txt h l0 →
  l ∈ post → l ≠ l0 → exceeds p txt h l →
  let h' := heap (constructor txt (pre ++ l0 :: post) h) in
  get_position p (h' l0) = text_length txt ∧
  get_position p (h' l) = get_position p (h l) ∧
  exceeds p txt h' l.
Proof.
  intros Hpre Hex0 Hin Hne Hex h'. subst h'.
  pose proof (first_offender_app p txt h pre l0 post Hpre Hex0) as Hf.
  unfold exceeds. rewrite !constructed_position, Hf.
  rewrite decide_True by done.
  rewrite decide_False by congruence. done.
Qed.

Lemma only_first_offender_corrected_witness :
  let h' := heap (constructor "abc" ([1%positive] ++ 2%positive :: [3%positive])
                    two_offenders) in
  get_position StartIndex (h' 2%positive) = text_length "abc" ∧
  get_position StartIndex (h' 3%positive)
  = get_position StartIndex (two_offenders 3%positive) ∧
  exceeds StartIndex "abc" h' 3%positive.
Proof.
  apply (only_first_offender_corrected StartIndex "abc" two_offenders
           [1%positive] 2%positive [3%positive] 3%positive).
  - constructor; [|constructor]. unfold exceeds.
    vm_compute; intros H; discriminate H.
  - unfold exceeds. vm_compute; reflexivity.
  - set_solver.
  - discriminate.
  - unfold exceeds. vm_compute; reflexivity.
Defined.

(** C4: when every span of the collection has both positions between 0 and
    the length of the text, the bound included, construction returns the
    text and the collection as given, leaves every span as it was and writes
    no diagnostic. *)
Theorem in_bounds_noop txt fmt (h : store) :
  (∀ l, l ∈ fmt → within_bounds txt (h l)) →
  constructor txt fmt h =
  mkOutcome {| text := txt; formatting := fmt |} h [].
Proof.
  intros Hin. apply constructor_noop. intros p l Hl.
  destruct (Hin l Hl) as [Hs He]. unfold exceeds. destruct p; cbn; lia.
Qed.

Lemma in_bounds_noop_witness :
  constructor "Hello world" [1%positive; 2%positive] hello_world_spans =
  mkOutcome
    {| text := "Hello world"; formatting := [1%positive; 2%positive] |}
    hello_world_spans [].
Proof.
  apply (in_bounds_noop "Hello world" [1%positive; 2%positive]
           hello_world_spans).
  intros l Hin. by_cases_on_entries Hin; unfold within_bounds; vm_compute;
    repeat split; intros H; discriminate H.
Defined.

(** C5: which spans have their [p] position corrected, and what the [p]
    positions are afterwards, depends on the input only through the [p]
    positions of the spans of the collection: two stores that agree on them
    give the same answers, whatever the other positions are.  Hence the
    first span whose [p] position lies past the end of the text has that
    position corrected and its other position left alone when the other one
    does not lie past the end. *)
Theorem positions_corrected_independently p txt fmt (h1 h2 : store) :
  (∀ l, l ∈ fmt → get_position p (h1 l) = get_position p (h2 l)) →
  (∀ l, corrected p txt fmt h1 l ↔ corrected p txt fmt h2 l) ∧
  (∀ l, l ∈ fmt →
     get_position p (heap (constructor txt fmt h1) l) =
     get_position p (heap (constructor txt fmt h2) l)) ∧
  (∀ l q, q ≠ p → first_offender p txt fmt h1 = Some l →
     ¬ exceeds q txt h1 l →
     corrected p txt fmt h1 l ∧ ¬ corrected q txt fmt h1 l).
Proof.
  intros Hagree.
  pose proof (first_offender_ext txt fmt p h1 h2 Hagree) as Hsame.
  split; [|split].
  - intros l. by rewrite !corrected_iff, Hsame.
  - intros l Hin. rewrite !constructed_position, Hsame, (Hagree l Hin). done.
  - intros l q Hq Hf Hnex. rewrite !corrected_iff. split; [done|].
    intros Hfq. by apply first_offender_Some in Hfq as [_ Hex].
Qed.

Lemma positions_corrected_independently_witness :
  let txt := "This text is very strong." in
  (∀ l, corrected EndIndex txt [1%positive] very_strong l ↔
        corrected EndIndex txt [1%positive] very_strong_moved l) ∧
  (∀ l, l ∈ [1%positive] →
     get_position EndIndex (heap (constructor txt [1%positive] very_strong) l) =
     get_position EndIndex
       (heap (constructor txt [1%positive] very_strong_moved) l)) ∧
  (∀ l q, q ≠ EndIndex →
     first_offender EndIndex txt [1%positive] very_strong = Some l →
     ¬ exceeds q txt very_strong l →
     corrected EndIndex txt [1%positive] very_strong l ∧
     ¬ corrected q txt [1%positive] very_strong l).
Proof.
  apply (positions_corrected_independently EndIndex
           "This text is very strong." [1%positive]
           very_strong very_strong_moved).
  intros l Hin. by_cases_on_entries Hin. reflexivity.
Defined.

(** C6: a diagnostic naming a position is written exactly when construction
    corrects that position of some span; and every diagnostic written
    belongs to a corrected span of the collection, and contains that span's
    tag, the name of the corrected position and the statement that it has
    been set to the end of the text. *)
Theorem diagnostics_iff_corrections txt fmt (h : store) :
  let r := constructor txt fmt h in
  (∀ p, (∃ l, corrected p txt fmt h l) ↔ (∃ t, warning t p ∈ console r)) ∧
  (∀ m, m ∈ console r →
     ∃ p l, l ∈ fmt ∧ corrected p txt fmt h l ∧
            m = warning (tag (h l)) p ∧
            includes (tag (h l)) m = true ∧
            includes (position_name p) m = true ∧
            includes "It has been set to the end of the text" m = true).
Proof.
  cbv zeta.
  split.
  - intros p. split.
    + intros [l Hc]. apply corrected_iff in Hc. exists (tag (h l)).
      rewrite constructed_console. apply elem_of_app. unfold report.
      destruct p; [left | right]; rewrite Hc; by apply list_elem_of_singleton.
    + intros [t Ht].
      destruct (console_accounted txt fmt h _ Ht) as (q & l & Hf & Heq).
      apply warning_position_inj in Heq as ->.
      exists l. by apply corrected_iff.
  - intros m Hm.
    destruct (console_accounted txt fmt h m Hm) as (p & l & Hf & ->).
    exists p, l. split; [by apply (first_offender_Some txt fmt p h)|].
    split; [by apply corrected_iff|]. split; [done|].
    by rewrite warning_includes_tag, warning_includes_position,
      warning_includes_statement.
Qed.

(** C7 fails on the code: over the empty text and the spans of
    [two_offenders], all of which start and end after position 0, only the
    first span is set to 0; the second and the third keep their positions. *)
Lemma empty_text_later_offenders_kept :
  let h' := heap (constructor "" [1%positive; 2%positive; 3%positive]
                    two_offenders) in
  (startIndex (h' 1%positive) = 0 ∧ endIndex (h' 1%positive) = 0) ∧
  (startIndex (h' 2%positive) = 7 ∧ endIndex (h' 2%positive) = 8) ∧
  (startIndex (h' 3%positive) = 9 ∧ endIndex (h' 3%positive) = 10).
Proof. vm_compute. done. Qed.

(** C8, as stated, fails: the text of the scenario has 25 characters, and
    the span's [endIndex] after construction is 25, not 26. *)
Lemma very_strong_endIndex_not_26 :
  text_length "This text is very strong." ≠ 26 ∧
  endIndex (heap (constructor "This text is very strong." [1%positive]
                    very_strong) 1%positive) ≠ 26.
Proof. split; vm_compute; discriminate. Qed.

(** C8, amended: constructing from the text "This text is very strong.", of
    length 25, and the single span tagged "strong" from 13 to 99 with the
    attribute id = "elem-id" leaves the span with [endIndex] 25,
    [startIndex] 13, the same tag and attributes, and writes exactly one
    diagnostic, which mentions "strong" and "endIndex". *)
Theorem very_strong_scenario :
  let r := constructor "This text is very strong." [1%positive] very_strong in
  text_length "This text is very strong." = 25 ∧
  value r = {| text := "This text is very strong.";
               formatting := [1%positive] |} ∧
  heap r 1%positive =
    mkFormattingElement "strong" 13 25 {[ "id" := "elem-id" ]} ∧
  (∃ m, console r = [m] ∧
        includes "strong" m = true ∧ includes "endIndex" m = true ∧
        m = "'strong' element's endIndex position larger than text. It has been set to the end of the text instead.").
Proof.
  cbv zeta. split; [done|]. split; [done|]. split; [done|].
  eexists. split; [reflexivity|]. by vm_compute.
Qed.

(** C9: a position that is negative on input is the same after
    construction, and every diagnostic written is due to some other
    position, one that lies past the end of the text. *)
Theorem negative_positions_pass_through p txt fmt (h : store) l :
  get_position p (h l) < 0 →
  let r := constructor txt fmt h in
  get_position p (heap r l) = get_position p (h l) ∧
  ¬ corrected p txt fmt h l ∧
  (∀ m, m ∈ console r →
     ∃ q l', l' ∈ fmt ∧ (q, l') ≠ (p, l) ∧ exceeds q txt h l' ∧
             m = warning (tag (h l')) q).
Proof.
  intros Hneg r. subst r.
  assert (Hlen : 0 ≤ text_length txt) by (unfold text_length; lia).
  assert (Hnot : first_offender p txt fmt h ≠ Some l).
  { intros Hf. apply first_offender_Some in Hf as [_ Hex].
    unfold exceeds in Hex. lia. }
  split; [|split].
  - rewrite constructed_position. by rewrite decide_False.
  - by rewrite corrected_iff.
  - intros m Hm.
    destruct (console_accounted txt fmt h m Hm) as (q & l' & Hf & ->).
    exists q, l'. apply first_offender_Some in Hf as Hf'.
    destruct Hf' as [Hin Hex]. split; [done|]. split; [|done].
    intros Heq. injection Heq as -> ->. done.
Qed.

Lemma negative_positions_pass_through_witness :
  let fmt := [1%positive; 2%positive; 3%positive] in
  let r := constructor "abc" fmt two_start_offenders_and_a_negative in
  get_position StartIndex (heap r 3%positive) =
  get_position StartIndex (two_start_offenders_and_a_negative 3%positive) ∧
  ¬ corrected StartIndex "abc" fmt two_start_offenders_and_a_negative
      3%positive ∧
  (∀ m, m ∈ console r →
     ∃ q l', l' ∈ fmt ∧ (q, l') ≠ (StartIndex, 3%positive) ∧
             exceeds q "abc" two_start_offenders_and_a_negative l' ∧
             m = warning (tag (two_start_offenders_and_a_negative l')) q).
Proof.
  apply (negative_positions_pass_through StartIndex "abc"
           [1%positive; 2%positive; 3%positive]
           two_start_offenders_and_a_negative 3%positive).
  vm_compute. reflexivity.
Defined.

(** C10: construction returns the text and the collection it was given, the
    collection with the same entries in the same order; it leaves the tag
    and the attributes of every span as they were; for each of [startIndex]
    and [endIndex] at most one span has that position changed, and a changed
    position belongs to a span of the collection and is then equal to the
    length of the text. *)
Theorem construction_changes_offsets_only txt fmt (h : store) :
  let r := constructor txt fmt h in
  text (value r) = txt ∧
  formatting (value r) = fmt ∧
  (∀ l, tag (heap r l) = tag (h l) ∧
        attributes (heap r l) = attributes (h l)) ∧
  (∀ p l1 l2,
     corrected p txt fmt h l1 → corrected p txt fmt h l2 → l1 = l2) ∧
  (∀ p l, corrected p txt fmt h l →
     l ∈ fmt ∧ get_position p (heap r l) = text_length txt).
Proof.
  cbv zeta. rewrite constructed_value. split; [done|]. split; [done|].
  split; [|split].
  - intros l. by rewrite constructed_tag, constructed_attributes.
  - intros p l1 l2 H1 H2. apply corrected_iff in H1, H2. congruence.
  - intros p l Hc. apply corrected_iff in Hc.
    rewrite constructed_position, decide_True by done.
    split; [|done]. by apply (first_offender_Some txt fmt p h).
Qed.

(** ** Further properties of construction *)

(** Two elements with the same four properties are the same contents. *)
Lemma FormattingElement_eq (e1 e2 : FormattingElement) :
  tag e1 = tag e2 →
  (∀ p, get_position p e1 = get_position p e2) →
  attributes e1 = attributes e2 →
  e1 = e2.
Proof.
  destruct e1, e2. intros Ht Hp Ha.
  pose proof (Hp StartIndex) as Hs. pose proof (Hp EndIndex) as He.
  cbn in *. by subst.
Qed.

Section After.
Variables (txt : string) (fmt : list loc) (h : store).

(** A position after construction is what it was, or it was past the end
    and is now the length of the text. *)
Lemma constructed_position_cases p l :
  get_position p (heap (constructor txt fmt h) l) = get_position p (h l) ∨
  (exceeds p txt h l ∧
   get_position p (heap (constructor txt fmt h) l) = text_length txt).
Proof.
  rewrite constructed_position.
  destruct (decide (first_offender p txt fmt h = Some l)) as [Hf|Hf];
    [right | by left].
  split; [|done]. by apply (first_offender_Some txt fmt p h).
Qed.

(** The positions still past the end after construction are those that
    were, less the first one. *)
Lemma exceeds_constructed p l :
  exceeds p txt (heap (constructor txt fmt h)) l ↔
  exceeds p txt h l ∧ first_offender p txt fmt h ≠ Some l.
Proof.
  unfold exceeds. rewrite constructed_position.
  destruct (decide (first_offender p txt fmt h = Some l)) as [Hf|Hf].
  - split; [lia|]. by intros [_ Hne].
  - split; [done|]. by intros [Hex _].
Qed.

Lemma report_nil_iff p :
  report p txt fmt h = [] ↔ first_offender p txt fmt h = None.
Proof. unfold report. by destruct (first_offender p txt fmt h). Qed.

Lemma length_report p : (length (report p txt fmt h) ≤ 1)%nat.
Proof. unfold report. destruct (first_offender p txt fmt h); cbn; lia. Qed.

Lemma report_lookup p i m :
  report p txt fmt h !! i = Some m → ∃ l, m = warning (tag (h l)) p.
Proof.
  unfold report. destruct (first_offender p txt fmt h) as [l|]; [|done].
  destruct i; [|done]. intros [= <-]. by exists l.
Qed.

(** Every offender of the array is the first one exactly when there is at
    most one. *)
Lemma first_offender_all_iff_sole p :
  (∀ l, l ∈ fmt → exceeds p txt h l →
     first_offender p txt fmt h = Some l) ↔
  (∀ l1 l2, l1 ∈ fmt → l2 ∈ fmt →
     exceeds p txt h l1 → exceeds p txt h l2 → l1 = l2).
Proof.
  split.
  - intros Hfirst l1 l2 Hin1 Hin2 Hex1 Hex2.
    pose proof (Hfirst l1 Hin1 Hex1). pose proof (Hfirst l2 Hin2 Hex2).
    congruence.
  - intros Hsole l Hin Hex. apply first_offender_sole; [done | done |].
    intros l' Hin' Hex'. by apply Hsole.
Qed.

Lemma console_nil_first_offender :
  console (constructor txt fmt h) = [] ↔
  ∀ p, first_offender p txt fmt h = None.
Proof.
  rewrite constructed_console. split.
  - intros Hnil p. apply app_eq_nil in Hnil as [Hs He].
    apply report_nil_iff. by destruct p.
  - intros Hnone.
    rewrite (proj2 (report_nil_iff StartIndex) (Hnone StartIndex)).
    by rewrite (proj2 (report_nil_iff EndIndex) (Hnone EndIndex)).
Qed.
End After.

(** X1: construction never raises an offset, and never lowers one below the
    smaller of its old value and the length of the text: each position of
    each element ends between the two. *)
Theorem offsets_only_shrink p txt fmt (h : store) l :
  Z.min (get_position p (h l)) (text_length txt)
  ≤ get_position p (heap (constructor txt fmt h) l)
  ≤ get_position p (h l).
Proof.
  destruct (constructed_position_cases txt fmt h p l) as [->|[Hex ->]];
    unfold exceeds in *; lia.
Qed.

(** X2: construction writes at most two warnings, and a warning about
    [startIndex] comes before a warning about [endIndex]. *)
Theorem warnings_at_most_two_in_order txt fmt (h : store) :
  let r := constructor txt fmt h in
  (length (console r) ≤ 2)%nat ∧
  (∀ i j t t',
     console r !! i = Some (warning t StartIndex) →
     console r !! j = Some (warning t' EndIndex) →
     (i < j)%nat).
Proof.
  cbv zeta. rewrite constructed_console. split.
  - rewrite length_app.
    pose proof (length_report txt fmt h StartIndex).
    pose proof (length_report txt fmt h EndIndex). lia.
  - intros i j t t' Hi Hj.
    apply lookup_app_Some in Hi as [Hi|[_ Hi]];
      [|apply report_lookup in Hi as [l Hl];
        by apply warning_position_inj in Hl].
    apply lookup_app_Some in Hj as [Hj|[Hj _]];
      [apply report_lookup in Hj as [l Hl];
        by apply warning_position_inj in Hl|].
    apply lookup_lt_Some in Hi. lia.
Qed.

(** X3: after construction every span of the collection has its [p]
    position at most the length of the text exactly when, on input, at most
    one span of the collection had it past the end. *)
Theorem bounded_above_iff_sole_offender p txt fmt (h : store) :
  (∀ l, l ∈ fmt →
     get_position p (heap (constructor txt fmt h) l) ≤ text_length txt) ↔
  (∀ l1 l2, l1 ∈ fmt → l2 ∈ fmt →
     exceeds p txt h l1 → exceeds p txt h l2 → l1 = l2).
Proof.
  rewrite <- first_offender_all_iff_sole. split.
  - intros Hle l Hin Hex. specialize (Hle l Hin).
    rewrite constructed_position in Hle.
    destruct (decide (first_offender p txt fmt h = Some l)); [done|].
    unfold exceeds in Hex. lia.
  - intros Hfirst l Hin. rewrite constructed_position.
    destruct (decide (first_offender p txt fmt h = Some l)) as [Hf|Hf]; [lia|].
    destruct (Z_le_gt_dec (get_position p (h l)) (text_length txt))
      as [Hle|Hgt]; [done|].
    destruct Hf. apply Hfirst; [done | unfold exceeds; lia].
Qed.

(** X4: construction writes nothing to the console exactly when no span
    of the collection has its [startIndex] or its [endIndex] past the end of
    the text. *)
Theorem silent_iff_no_offender txt fmt (h : store) :
  console (constructor txt fmt h) = [] ↔
  ∀ p l, l ∈ fmt → get_position p (h l) ≤ text_length txt.
Proof.
  rewrite console_nil_first_offender. split.
  - intros Hnone p l Hin.
    pose proof (proj1 (first_offender_None txt fmt p h) (Hnone p) l Hin) as H.
    unfold exceeds in H. lia.
  - intros Hle p. apply first_offender_None. intros l Hin.
    specialize (Hle p l Hin). unfold exceeds. lia.
Qed.

(** X5: constructing a second time from the same text and collection does
    nothing (same store, no warning) exactly when, on the first input, for
    each of [startIndex] and [endIndex] at most one span of the collection
    was past the end of the text. *)
Theorem second_construction_noop_iff txt fmt (h : store) :
  let h' := heap (constructor txt fmt h) in
  constructor txt fmt h' =
    mkOutcome {| text := txt; formatting := fmt |} h' [] ↔
  (∀ p l1 l2, l1 ∈ fmt → l2 ∈ fmt →
     exceeds p txt h l1 → exceeds p txt h l2 → l1 = l2).
Proof.
  cbv zeta. split.
  - intros Heq p. apply first_offender_all_iff_sole. intros l Hin Hex.
    set (h' := heap (constructor txt fmt h)) in *.
    assert (Hc : console (constructor txt fmt h') = []) by by rewrite Heq.
    pose proof (proj1 (console_nil_first_offender txt fmt h') Hc p) as Hnone.
    pose proof (proj1 (first_offender_None txt fmt p h') Hnone l Hin) as Hnex.
    subst h'. rewrite exceeds_constructed in Hnex.
    destruct (decide (first_offender p txt fmt h = Some l)); [done|].
    by destruct Hnex.
  - intros Hsole. apply constructor_noop. intros p l Hin.
    rewrite exceeds_constructed. intros [Hex Hne]. apply Hne.
    by apply (proj2 (first_offender_all_iff_sole txt fmt h p) (Hsole p)).
Qed.

(** The search does not depend on the order of the array when at most one
    of its elements is past the end. *)
Lemma first_offender_Permutation p txt fmt fmt' (h : store) :
  fmt ≡ₚ fmt' →
  (∀ l1 l2, l1 ∈ fmt → l2 ∈ fmt →
     exceeds p txt h l1 → exceeds p txt h l2 → l1 = l2) →
  first_offender p txt fmt h = first_offender p txt fmt' h.
Proof.
  intros Hperm Hsole.
  destruct (first_offender p txt fmt h) as [l|] eqn:Hf; symmetry.
  - apply first_offender_Some in Hf as [Hin Hex].
    apply first_offender_sole; [by rewrite <- Hperm | done |].
    intros l' Hin' Hex'. rewrite <- Hperm in Hin'. by apply Hsole.
  - apply first_offender_None. intros l Hin. rewrite <- Hperm in Hin.
    by apply (proj1 (first_offender_None txt fmt p h) Hf).
Qed.

(** The search reads the text through its length only. *)
Lemma first_offender_text_length p t1 t2 fmt (h : store) :
  text_length t1 = text_length t2 →
  first_offender p t1 fmt h = first_offender p t2 fmt h.
Proof. unfold first_offender. by intros ->. Qed.

(** Two constructions whose searches agree and whose texts are equally long
    leave the same elements and the same console. *)
Lemma constructor_agree t1 t2 fmt1 fmt2 (h : store) :
  text_length t1 = text_length t2 →
  (∀ p, first_offender p t1 fmt1 h = first_offender p t2 fmt2 h) →
  (∀ l, heap (constructor t1 fmt1 h) l = heap (constructor t2 fmt2 h) l) ∧
  console (constructor t1 fmt1 h) = console (constructor t2 fmt2 h).
Proof.
  intros Hlen Hfo. split.
  - intros l. apply FormattingElement_eq.
    + by rewrite !constructed_tag.
    + intros p. by rewrite !constructed_position, Hfo, Hlen.
    + by rewrite !constructed_attributes.
  - rewrite !constructed_console. unfold report. by rewrite !Hfo.
Qed.

Section Repeated.
Variables (txt : string) (fmt : list loc).

Lemma heap_construct_times_S n (h : store) :
  heap (construct_times (S n) txt fmt h) =
  heap (construct_times n txt fmt (heap (constructor txt fmt h))).
Proof. reflexivity. Qed.

Lemma offenders_constructed p (h : store) :
  offenders p txt fmt (heap (constructor txt fmt h)) =
  filter (fun l => first_offender p txt fmt h ≠ Some l)
    (offenders p txt fmt h).
Proof.
  unfold offenders. rewrite list_filter_filter. apply list_filter_iff.
  intros l. rewrite exceeds_constructed. tauto.
Qed.

Lemma offenders_nil_iff p (h : store) :
  offenders p txt fmt h = [] ↔ ∀ l, l ∈ fmt → ¬ exceeds p txt h l.
Proof.
  unfold offenders. split.
  - intros Hnil l Hin Hex.
    assert (Hl : l ∈ filter (fun l => exceeds p txt h l) fmt)
      by by apply list_elem_of_filter.
    rewrite Hnil in Hl. by apply elem_of_nil in Hl.
  - intros Hnone. apply elem_of_nil_inv. intros l Hl.
    apply list_elem_of_filter in Hl as [Hex Hin]. by apply (Hnone l).
Qed.

(** Each construction takes at least one entry off the list of offenders,
    as long as there is one. *)
Lemma length_offenders_constructed p (h : store) :
  (length (offenders p txt fmt (heap (constructor txt fmt h)))
   ≤ pred (length (offenders p txt fmt h)))%nat.
Proof.
  rewrite offenders_constructed.
  destruct (first_offender p txt fmt h) as [l0|] eqn:Hf.
  - apply first_offender_Some in Hf as [Hin Hex].
    assert (Hl0 : l0 ∈ offenders p txt fmt h)
      by by apply list_elem_of_filter.
    pose proof (length_filter_lt (fun l => Some l0 ≠ Some l) _ l0 Hl0) as Hlt.
    assert (¬ Some l0 ≠ Some l0) as Hnn by (intros Hne; by apply Hne).
    specialize (Hlt Hnn). lia.
  - pose proof (proj1 (first_offender_None txt fmt p h) Hf) as Hnone.
    rewrite (proj2 (offenders_nil_iff p h) Hnone). cbn. lia.
Qed.

Lemma offenders_construct_times p n : ∀ h : store,
  (length (offenders p txt fmt h) ≤ n)%nat →
  offenders p txt fmt (heap (construct_times n txt fmt h)) = [].
Proof.
  induction n as [|n IH]; intros h Hn.
  - cbn. apply length_zero_iff_nil. lia.
  - rewrite heap_construct_times_S. apply IH.
    pose proof (length_offenders_constructed p h). lia.
Qed.
(** However often construction is repeated, a position is what it was at
    first, or it was past the end and is now the length of the text. *)
Lemma construct_times_position_cases p n : ∀ (h : store) l,
  get_position p (heap (construct_times n txt fmt h) l) = get_position p (h l) ∨
  (exceeds p txt h l ∧
   get_position p (heap (construct_times n txt fmt h) l) = text_length txt).
Proof.
  induction n as [|n IH]; intros h l; [by left|].
  rewrite heap_construct_times_S.
  destruct (IH (heap (constructor txt fmt h)) l) as [->|[Hex ->]].
  - apply constructed_position_cases.
  - right. split; [|done]. by apply exceeds_constructed in Hex as [Hex _].
Qed.
End Repeated.

(** X6: the two passes of the constructor commute: run in either order
    from the same store, they leave every element the same, and they write
    the same warnings, in the order of the passes. *)
Theorem passes_commute txt fmt (h : store) :
  let this := {| text := txt; formatting := fmt |} in
  let start_first :=
    (_constrainFormatElementPositionsToEnd this StartIndex;;
     _constrainFormatElementPositionsToEnd this EndIndex) h in
  let end_first :=
    (_constrainFormatElementPositionsToEnd this EndIndex;;
     _constrainFormatElementPositionsToEnd this StartIndex) h in
  (∀ l, heap start_first l = heap end_first l) ∧
  console start_first ≡ₚ console end_first.
Proof.
  cbv zeta. unfold mbind, M_bind. rewrite !constrain_clamp_report.
  cbv [value heap console]. split.
  - intros l. apply FormattingElement_eq.
    + by rewrite !tag_clamp.
    + intros [].
      * rewrite (get_position_clamp_ne txt fmt StartIndex EndIndex) by done.
        rewrite !get_position_clamp_eq.
        rewrite (first_offender_clamp txt fmt StartIndex EndIndex) by done.
        by rewrite (get_position_clamp_ne txt fmt StartIndex EndIndex).
      * rewrite (get_position_clamp_ne txt fmt EndIndex StartIndex) by done.
        rewrite !get_position_clamp_eq.
        rewrite (first_offender_clamp txt fmt EndIndex StartIndex) by done.
        by rewrite (get_position_clamp_ne txt fmt EndIndex StartIndex).
    + by rewrite !attributes_clamp.
  - rewrite !report_clamp by done. apply Permutation_app_comm.
Qed.

(** X7: constructing repeatedly from the same text and collection ends up
    clamping every span of the collection: after as many constructions as
    there are entries past the end in [p], each [p] position of the
    collection is the smaller of its original value and the length of the
    text. *)
Theorem repeated_construction_clamps_all p txt fmt (h : store) n l :
  (length (offenders p txt fmt h) ≤ n)%nat →
  l ∈ fmt →
  get_position p (heap (construct_times n txt fmt h) l)
  = Z.min (get_position p (h l)) (text_length txt).
Proof.
  intros Hn Hin.
  pose proof (offenders_construct_times txt fmt p n h Hn) as Hnil.
  pose proof (proj1 (offenders_nil_iff txt fmt p _) Hnil l Hin) as Hnex.
  unfold exceeds in Hnex.
  destruct (construct_times_position_cases txt fmt p n h l) as [Heq|[Hex Heq]];
    unfold exceeds in *; lia.
Qed.

Lemma repeated_construction_clamps_all_witness :
  (length (offenders StartIndex "abc" [1%positive; 2%positive; 3%positive]
             two_offenders) ≤ 2)%nat ∧
  get_position StartIndex
    (heap (construct_times 2 "abc" [1%positive; 2%positive; 3%positive]
             two_offenders) 3%positive)
  = Z.min (get_position StartIndex (two_offenders 3%positive))
      (text_length "abc").
Proof.
  assert (Hn : (length (offenders StartIndex "abc"
                          [1%positive; 2%positive; 3%positive]
                          two_offenders) ≤ 2)%nat)
    by (vm_compute; apply le_n).
  split; [exact Hn|].
  apply (repeated_construction_clamps_all StartIndex "abc"
           [1%positive; 2%positive; 3%positive] two_offenders 2 3%positive Hn).
  set_solver.
Defined.

(** X8: a span that starts no later than it ends comes out of construction
    ending before it starts exactly when it is the first span ending past
    the end of the text while its start, also past the end, is not the
    first such start. *)
Theorem span_inverted_iff txt fmt (h : store) l :
  startIndex (h l) ≤ endIndex (h l) →
  let h' := heap (constructor txt fmt h) in
  endIndex (h' l) < startIndex (h' l) ↔
  first_offender EndIndex txt fmt h = Some l ∧
  exceeds StartIndex txt h l ∧
  first_offender StartIndex txt fmt h ≠ Some l.
Proof.
  intros Hle h'. subst h'.
  pose proof (constructed_position txt fmt h StartIndex l) as Hs.
  pose proof (constructed_position txt fmt h EndIndex l) as He.
  cbn [get_position] in Hs, He. rewrite Hs, He. unfold exceeds.
  cbn [get_position].
  destruct (decide (first_offender StartIndex txt fmt h = Some l)) as [Hfs|Hfs];
    destruct (decide (first_offender EndIndex txt fmt h = Some l)) as [Hfe|Hfe].
  - split; [lia | by intros (_ & _ & Hne)].
  - apply first_offender_Some in Hfs as [_ Hex]. unfold exceeds in Hex.
    cbn [get_position] in Hex. split; [lia | by intros (Hfe' & _)].
  - split; [intros Hlt; split; [done|]; split; [lia | done] |].
    intros (_ & Hex & _). lia.
  - split; [lia | by intros (Hfe' & _)].
Qed.

Lemma span_inverted_iff_witness :
  startIndex (wide_span_after_start_offender 2%positive)
  ≤ endIndex (wide_span_after_start_offender 2%positive) ∧
  let h' := heap (constructor "abc" [1%positive; 2%positive]
                    wide_span_after_start_offender) in
  (endIndex (h' 2%positive) < startIndex (h' 2%positive) ↔
   first_offender EndIndex "abc" [1%positive; 2%positive]
     wide_span_after_start_offender = Some 2%positive ∧
   exceeds StartIndex "abc" wide_span_after_start_offender 2%positive ∧
   first_offender StartIndex "abc" [1%positive; 2%positive]
     wide_span_after_start_offender ≠ Some 2%positive).
Proof.
  assert (Hle : startIndex (wide_span_after_start_offender 2%positive)
                ≤ endIndex (wide_span_after_start_offender 2%positive))
    by (vm_compute; discriminate).
  split; [exact Hle|].
  exact (span_inverted_iff "abc" [1%positive; 2%positive]
           wide_span_after_start_offender 2%positive Hle).
Defined.

(** X9: when for each of [startIndex] and [endIndex] at most one span of
    the collection is past the end of the text, the order of the collection
    does not matter: any reordering leaves every element and the console
    the same. *)
Theorem order_irrelevant_with_sole_offenders txt fmt fmt' (h : store) :
  fmt ≡ₚ fmt' →
  (∀ p l1 l2, l1 ∈ fmt → l2 ∈ fmt →
     exceeds p txt h l1 → exceeds p txt h l2 → l1 = l2) →
  (∀ l, heap (constructor txt fmt h) l = heap (constructor txt fmt' h) l) ∧
  console (constructor txt fmt h) = console (constructor txt fmt' h).
Proof.
  intros Hperm Hsole. apply constructor_agree; [done|].
  intros p. apply first_offender_Permutation; [done | apply Hsole].
Qed.

Lemma order_irrelevant_with_sole_offenders_witness :
  (∀ l, heap (constructor "abcde" [1%positive; 2%positive]
                start_and_end_offenders) l =
        heap (constructor "abcde" [2%positive; 1%positive]
                start_and_end_offenders) l) ∧
  console (constructor "abcde" [1%positive; 2%positive]
             start_and_end_offenders) =
  console (constructor "abcde" [2%positive; 1%positive]
             start_and_end_offenders).
Proof.
  apply (order_irrelevant_with_sole_offenders "abcde"
           [1%positive; 2%positive] [2%positive; 1%positive]
           start_and_end_offenders).
  - apply perm_swap.
  - intros p l1 l2 Hin1 Hin2 Hex1 Hex2. unfold exceeds in Hex1, Hex2.
    by_cases_on_entries Hin1; by_cases_on_entries Hin2;
      try reflexivity; destruct p; vm_compute in Hex1, Hex2; discriminate.
Defined.

(** X10: construction reads the text through its length only: two texts
    of the same length give the same elements and the same console. *)
Theorem text_read_through_length t1 t2 fmt (h : store) :
  String.length t1 = String.length t2 →
  (∀ l, heap (constructor t1 fmt h) l = heap (constructor t2 fmt h) l) ∧
  console (constructor t1 fmt h) = console (constructor t2 fmt h).
Proof.
  intros Hlen.
  assert (Hlen' : text_length t1 = text_length t2)
    by (unfold text_length; by rewrite Hlen).
  apply constructor_agree; [done|].
  intros p. by apply first_offender_text_length.
Qed.

Lemma text_read_through_length_witness :
  (∀ l, heap (constructor "abc" [1%positive; 2%positive; 3%positive]
                two_offenders) l =
        heap (constructor "xyz" [1%positive; 2%positive; 3%positive]
                two_offenders) l) ∧
  console (constructor "abc" [1%positive; 2%positive; 3%positive]
             two_offenders) =
  console (constructor "xyz" [1%positive; 2%positive; 3%positive]
             two_offenders).
Proof.
  apply (text_read_through_length "abc" "xyz"
           [1%positive; 2%positive; 3%positive] two_offenders).
  reflexivity.
Defined.
